(** * parameters_pack: compile-time checks over a variadic pack of constants

    A verification development for [iso::parameters_pack]
    (src/parameters_pack.hpp).  The class is a set of overloaded [constexpr]
    functions; what a call returns is decided by which overload the compiler
    selects.  The embedding therefore has two layers:

    - the selection of an overload among the declared candidates from the
      static types of the arguments (implicit conversion sequences, the
      preference of a non-template over a template, the partial ordering of
      function templates);
    - the bodies of the overloads, one branch per declaration of the source.

    A call that the compiler would reject (no viable overload, or an ambiguous
    one) evaluates to [None].  The three functions that recurse over the pack
    ([params_types_v], [is_duplicates_v], [extract]) return, next to their
    result, the overloads entered as the call is evaluated; the function
    proper is the result component. *)

From stdpp Require Import list.

(** ** Overload resolution *)

Section Overloads.
(** The static types a constant of the pack can have, and the types written
    in a template argument list: object types without cv-qualifier or
    reference, compared by identity. *)
Context {Ty : Type} `{!EqDecision Ty}.

(** [convertible A B]: an implicit conversion from [A] to the different
    type [B] exists (integral conversions, derived to base, a converting
    constructor,...). *)
Variable convertible : Ty → Ty → bool.

(** The type of a function parameter as it is declared. *)
Inductive parm : Type :=
  | P_type (T : Ty)     (* a given type, as [const Type first] *)
  | P_tvar (n : nat).   (* the template type parameter number [n], as [const First] *)

#[global] Instance parm_eq_dec : EqDecision parm.
Proof. solve_decision. Defined.

(** The declaration of a candidate: [sig_pack] says that the parameter list
    ends with a function parameter pack, as [const Rest... rest]. *)
Record signature : Type := Signature {
  sig_template : bool;
  sig_parms : list parm;
  sig_pack : bool
}.

(** Implicit conversion sequences, best first.  Every sequence that is not
    the identity (promotion, conversion, qualification adjustment, user
    defined) ranks after the identity; no finer order is needed. *)
Inductive ics : Type := Identity | Conversion.

Definition ics_not_worse (a b : ics) : bool :=
  match a, b with Conversion, Identity => false | _, _ => true end.

Definition ics_strictly_better (a b : ics) : bool :=
  match a, b with Identity, Conversion => true | _, _ => false end.

(** Passing an argument of type [A] to a parameter of the given type [P]. *)
Definition standard_conversion (A P : Ty) : option ics :=
  if decide (A = P) then Some Identity
  else if convertible A P then Some Conversion else None.

Fixpoint assoc {V : Type} (n : nat) (env : list (nat * V)) : option V :=
  match env with
  | [] => None
  | (m, v) :: env' => if decide (n = m) then Some v else assoc n env'
  end.

(** Template argument deduction from a call and the conversion sequence of
    each argument; [None] when the candidate is not viable.  A deduced
    parameter takes the type of its argument as it is; a template parameter
    met twice must be deduced to the same type; the elements of a trailing
    pack are deduced one by one. *)
Fixpoint conversions (env : list (nat * Ty)) (ps : list parm) (pack : bool)
    (args : list Ty) {struct args} : option (list ics) :=
  match args, ps with
  | [], [] => Some []
  | [], _ :: _ => None
  | A :: args', [] =>
      if pack then cons Identity <$> conversions env [] pack args' else None
  | A :: args', P_type T :: ps' =>
      c ← standard_conversion A T;
      cons c <$> conversions env ps' pack args'
  | A :: args', P_tvar n :: ps' =>
      match assoc n env with
      | Some B =>
          if decide (A = B) then cons Identity <$> conversions env ps' pack args'
          else None
      | None => cons Identity <$> conversions ((n, A) :: env) ps' pack args'
      end
  end.

Definition viable (s : signature) (args : list Ty) : option (list ics) :=
  conversions [] (sig_parms s) (sig_pack s) args.

(** Partial ordering of function templates over the first [n] parameters
    (the call has [n] arguments).  [deduces env psP packP psA packA n]: the
    parameters [psP] can be deduced from the types of [psA], where every
    template parameter of [psA] stands for a unique type.  A parameter of a
    given type is matched by that type only, as GCC and Clang order
    templates; a type that comes from a pack is not matched by a parameter
    that is not a pack. *)
Fixpoint deduces (env : list (nat * parm)) (psP : list parm) (packP : bool)
    (psA : list parm) (packA : bool) (n : nat) {struct n} : bool :=
  match n with
  | 0 => true
  | S n' =>
      match psP, psA with
      | P_type T :: psP', a :: psA' =>
          bool_decide (a = P_type T) && deduces env psP' packP psA' packA n'
      | P_tvar k :: psP', a :: psA' =>
          match assoc k env with
          | Some a' => bool_decide (a = a') && deduces env psP' packP psA' packA n'
          | None => deduces ((k, a) :: env) psP' packP psA' packA n'
          end
      | _ :: _, [] => false
      | [], _ :: psA' => packP && deduces env [] packP psA' packA n'
      | [], [] => packP && packA && deduces env [] packP [] packA n'
      end
  end.

Definition at_least_as_specialized (f g : signature) (n : nat) : bool :=
  deduces [] (sig_parms g) (sig_pack g) (sig_parms f) (sig_pack f) n.

(** [f] is more specialized than [g]; when each is at least as specialized
    as the other, the one without a trailing pack wins over the one whose
    trailing pack has no counterpart in it. *)
Definition more_specialized (f g : signature) (n : nat) : bool :=
  at_least_as_specialized f g n &&
  (negb (at_least_as_specialized g f n)
   || (negb (sig_pack f) && sig_pack g
       && bool_decide (length (sig_parms f) ≤ length (sig_parms g)))).

Fixpoint all2 (r : ics → ics → bool) (l k : list ics) : bool :=
  match l, k with
  | a :: l', b :: k' => r a b && all2 r l' k'
  | _, _ => true
  end.

Fixpoint some2 (r : ics → ics → bool) (l k : list ics) : bool :=
  match l, k with
  | a :: l', b :: k' => r a b || some2 r l' k'
  | _, _ => false
  end.

(** [better f g args]: [f] is a better candidate than [g] for the call.  A
    candidate that is not viable is not in the competition. *)
Definition better (f g : signature) (args : list Ty) : bool :=
  match viable f args, viable g args with
  | Some cf, Some cg =>
      all2 ics_not_worse cf cg &&
      (some2 ics_strictly_better cf cg
       || (negb (sig_template f) && sig_template g)
       || (sig_template f && sig_template g
           && more_specialized f g (length args)))
  | Some _, None => true
  | None, _ => false
  end.

(** The candidates that are better than every other one. *)
Fixpoint winners {Tag : Type} (before after : list (Tag * signature))
    (args : list Ty) : list Tag :=
  match after with
  | [] => []
  | c :: after' =>
      (if forallb (λ d, better c.2 d.2 args) (before ++ after')
          && bool_decide (is_Some (viable c.2 args))
       then [c.1] else [])
      ++ winners (before ++ [c]) after' args
  end.

(** The overload selected for a call: the one viable candidate that is
    better than all the others, if there is exactly one. *)
Definition select {Tag : Type} (candidates : list (Tag * signature))
    (args : list Ty) : option Tag :=
  match winners [] candidates args with
  | [t] => Some t
  | _ => None
  end.

End Overloads.

Arguments parm : clear implicits.
Arguments signature : clear implicits.

(** ** The class [parameters_pack] *)

(** The overloads of each member function, named after their parameter
    lists, in the order of the source. *)

(* check_v<...>::list_contains_param_v *)
Inductive list_contains_param_v_overload : Type :=
  | lcp_TypeFirst   (* (const TypeFirst) *)
  | lcp_Value.      (* template <Value> (const Value value) *)

(* check_v<...>::params_types_v *)
Inductive params_types_v_overload : Type :=
  | pt_none         (* () *)
  | pt_First_Rest.  (* template <First, Rest...> (const First first, const Rest... rest) *)

(* duplicate::is_same_v *)
Inductive is_same_v_overload : Type :=
  | same_T_T        (* template <T> (const T, const T) *)
  | same_T_U.       (* template <T, U> (const T, const U) *)

(* duplicate::is_duplicates_v *)
Inductive is_duplicates_v_overload : Type :=
  | dup_none        (* () *)
  | dup_First       (* template <First> (const First) *)
  | dup_First_Rest. (* template <First, Rest...> (const First first, const Rest... rest) *)

(* value<Type, defaultValue>::extract *)
Inductive extract_overload : Type :=
  | ext_none        (* () *)
  | ext_Type        (* (const Type first) *)
  | ext_First       (* template <First> (const First) *)
  | ext_Type_Rest   (* template <Rest...> (const Type first, const Rest...) *)
  | ext_First_Rest. (* template <First, Rest...> (const First, const Rest... rest) *)

(* types<...>::check *)
Inductive check_overload : Type :=
  | check_none        (* () *)
  | check_First_Rest. (* template <First, Rest...> (const First first, const Rest... rest) *)

(* no_duplicates *)
Inductive no_duplicates_overload : Type :=
  | nodup_none        (* () *)
  | nodup_First       (* template <First> (const First first) *)
  | nodup_First_Rest. (* template <First, Rest...> (const First first, const Rest... rest) *)

Section ParametersPack.
Context {Ty : Type} `{!EqDecision Ty}.

(** The constants of each type, and a constant of the pack: a value together
    with its static type. *)
Variable Val : Ty → Type.
Definition param : Type := sigT Val.
Definition type_of (p : param) : Ty := projT1 p.
Definition types_of (pack : list param) : list Ty := type_of <$> pack.

Variable convertible : Ty → Ty → bool.
(** The value an implicit conversion produces. *)
Variable convert : ∀ A B : Ty, Val A → Val B.
(** [Type{}]: the value-initialized constant of a type. *)
Variable value_init : ∀ T : Ty, Val T.

(** Initializing a parameter declared [const T] with an argument. *)
Definition pass (T : Ty) (a : param) : Val T :=
  match decide (type_of a = T) with
  | left e => eq_rect (type_of a) Val (projT2 a) T e
  | right _ => convert (type_of a) T (projT2 a)
  end.

(** *** [check_v<TypeFirst, TypesRest...>] and [check_v<TypeFirst>] *)

Definition list_contains_param_v_overloads (TypeFirst : Ty) :
    list (list_contains_param_v_overload * signature Ty) :=
  [ (lcp_TypeFirst, Signature false [P_type TypeFirst] false);
    (lcp_Value, Signature true [P_tvar 0] false) ].

(** The primary template hands the value over to [check_v<TypesRest...>];
    the specialization for a single type answers [false]. *)
Fixpoint list_contains_param_v (TypeFirst : Ty) (TypesRest : list Ty)
    (value : param) : option bool :=
  match select convertible (list_contains_param_v_overloads TypeFirst)
          [type_of value] with
  | Some lcp_TypeFirst => Some true
  | Some lcp_Value =>
      match TypesRest with
      | [] => Some false
      | T :: Ts => list_contains_param_v T Ts value
      end
  | None => None
  end.

Definition params_types_v_overloads :
    list (params_types_v_overload * signature Ty) :=
  [ (pt_none, Signature false [] false);
    (pt_First_Rest, Signature true [P_tvar 0] true) ].

(** The result comes with the overloads entered along the recursion.  Both
    operands of [?:] are compiled whatever the condition is, so a call that
    cannot be resolved in either makes the whole call ill-formed; the second
    operand is evaluated, and its calls entered, only when the condition is
    [true]. *)
Fixpoint params_types_v_run (TypeFirst : Ty) (TypesRest : list Ty)
    (pack : list param) : option (list params_types_v_overload * bool) :=
  match select convertible params_types_v_overloads (types_of pack), pack with
  | Some pt_none, [] => Some ([pt_none], true)
  | Some pt_First_Rest, first :: rest =>
      c ← list_contains_param_v TypeFirst TypesRest first;
      '(tr, r) ← params_types_v_run TypeFirst TypesRest rest;
      Some (if c : bool then pt_First_Rest :: tr else [pt_First_Rest],
            if c : bool then r else false)
  | _, _ => None
  end.

Definition params_types_v (TypeFirst : Ty) (TypesRest : list Ty)
    (pack : list param) : option bool :=
  snd <$> params_types_v_run TypeFirst TypesRest pack.

(** *** [duplicate] *)

Definition is_same_v_overloads : list (is_same_v_overload * signature Ty) :=
  [ (same_T_T, Signature true [P_tvar 0; P_tvar 0] false);
    (same_T_U, Signature true [P_tvar 0; P_tvar 1] false) ].

Definition is_same_v (a b : param) : option bool :=
  match select convertible is_same_v_overloads [type_of a; type_of b] with
  | Some same_T_T => Some true
  | Some same_T_U => Some false
  | None => None
  end.

(** The fold expression [(e && ...)] over the expansions of a pack; over
    an empty pack it is [true]. *)
Fixpoint fold_and (es : list (option bool)) : option bool :=
  match es with
  | [] => Some true
  | e :: es' => b ← e; r ← fold_and es'; Some (b && r)
  end.

Definition is_duplicates_v_overloads :
    list (is_duplicates_v_overload * signature Ty) :=
  [ (dup_none, Signature false [] false);
    (dup_First, Signature true [P_tvar 0] false);
    (dup_First_Rest, Signature true [P_tvar 0] true) ].

(** The right operand of [&&] is compiled in any case and evaluated, its
    calls entered, only when the fold is [true]. *)
Fixpoint is_duplicates_v_run (pack : list param) :
    option (list is_duplicates_v_overload * bool) :=
  match select convertible is_duplicates_v_overloads (types_of pack), pack with
  | Some dup_none, [] => Some ([dup_none], true)
  | Some dup_First, [_] => Some ([dup_First], true)
  | Some dup_First_Rest, first :: rest =>
      d ← fold_and ((λ r, negb <$> is_same_v first r) <$> rest);
      '(tr, r) ← is_duplicates_v_run rest;
      Some (if d : bool then dup_First_Rest :: tr else [dup_First_Rest], d && r)
  | _, _ => None
  end.

Definition is_duplicates_v (pack : list param) : option bool :=
  snd <$> is_duplicates_v_run pack.

(** *** [value<Type, defaultValue>] *)

Section value.
Variable Type_ : Ty.
Variable defaultValue : Val Type_.

Definition extract_overloads : list (extract_overload * signature Ty) :=
  [ (ext_none, Signature false [] false);
    (ext_Type, Signature false [P_type Type_] false);
    (ext_First, Signature true [P_tvar 0] false);
    (ext_Type_Rest, Signature true [P_type Type_] true);
    (ext_First_Rest, Signature true [P_tvar 0] true) ].

Fixpoint extract_run (pack : list param) :
    option (list extract_overload * Val Type_) :=
  match select convertible extract_overloads (types_of pack), pack with
  | Some ext_none, [] => Some ([ext_none], defaultValue)
  | Some ext_Type, [first] => Some ([ext_Type], pass Type_ first)
  | Some ext_First, [_] => Some ([ext_First], defaultValue)
  | Some ext_Type_Rest, first :: _ => Some ([ext_Type_Rest], pass Type_ first)
  | Some ext_First_Rest, _ :: rest =>
      '(tr, v) ← extract_run rest;
      Some (ext_First_Rest :: tr, v)
  | _, _ => None
  end.

Definition extract (pack : list param) : option (Val Type_) :=
  snd <$> extract_run pack.
End value.

(** [value<Type>]: the second template argument defaults to [Type{}]. *)
Definition value_default (T : Ty) (defaultValue : option (Val T)) : Val T :=
  default (value_init T) defaultValue.

(** *** [types<TypeFirst, TypesRest...>] *)

Definition check_overloads : list (check_overload * signature Ty) :=
  [ (check_none, Signature false [] false);
    (check_First_Rest, Signature true [P_tvar 0] true) ].

Definition check (TypeFirst : Ty) (TypesRest : list Ty) (pack : list param) :
    option bool :=
  match select convertible check_overloads (types_of pack), pack with
  | Some check_none, [] => Some true
  | Some check_First_Rest, first :: rest =>
      params_types_v TypeFirst TypesRest (first :: rest)
  | _, _ => None
  end.

(** *** [no_duplicates] *)

Definition no_duplicates_overloads :
    list (no_duplicates_overload * signature Ty) :=
  [ (nodup_none, Signature false [] false);
    (nodup_First, Signature true [P_tvar 0] false);
    (nodup_First_Rest, Signature true [P_tvar 0] true) ].

Definition no_duplicates (pack : list param) : option bool :=
  match select convertible no_duplicates_overloads (types_of pack), pack with
  | Some nodup_none, [] => Some true
  | Some nodup_First, [_] => Some true
  | Some nodup_First_Rest, first :: rest => is_duplicates_v (first :: rest)
  | _, _ => None
  end.

(** *** Notions used to state the properties *)

(** The elements of the pack whose static type is [T], in pack order. *)
Definition of_type (T : Ty) (pack : list param) : list param :=
  filter (λ a, type_of a = T) pack.

End ParametersPack.

(** A chain of calls on a pack: [steps] entries of the recursive overload,
    each of which calls the function on the rest of its pack, then the call
    that returns.  The last call can be of the recursive overload too, when
    it returns without evaluating its recursive call. *)
Definition returns_within {Tag : Type} (recursive : Tag) (n : nat)
    (trace : list Tag) : Prop :=
  ∃ (steps : nat) (last : Tag),
    trace = replicate steps recursive ++ [last] ∧ steps ≤ n.

Arguments type_of {Ty Val} p.
Arguments types_of {Ty Val} pack.
Arguments of_type {Ty _ Val} T pack.

(** ** A concrete universe: the configuration of a GPIO pin

    The optional settings of the nrf5340 GPIO driver of the Readme, each an
    [enum class], and the two integral types [int] and [long], which convert
    to each other implicitly while no scoped enumeration converts to
    anything. *)

Module Gpio.
Inductive Input : Set := Connect | Disconnect.
Inductive Pull : Set := No | Down | Up.
Inductive Drive : Set :=
  SOS1 | HOS1 | SOH1 | HOH1 | DOS1 | DOH1 | SOD1 | HOD1 | EDE1.
Inductive Sense : Set := Disabled | High | Low.
Inductive McuSel : Set := AppMCU | NetworkMCU | Peripheral | TND.

Inductive ty : Set :=
  T_Input | T_Pull | T_Drive | T_Sense | T_McuSel | T_int | T_long.

#[global] Instance ty_eq_dec : EqDecision ty.
Proof. solve_decision. Defined.

Definition Val (t : ty) : Type :=
  match t with
  | T_Input => Input
  | T_Pull => Pull
  | T_Drive => Drive
  | T_Sense => Sense
  | T_McuSel => McuSel
  | T_int | T_long => Z
  end.

(** [Type{}]: the enumerator of value zero, and [0]. *)
Definition value_init (t : ty) : Val t :=
  match t with
  | T_Input => Connect
  | T_Pull => No
  | T_Drive => SOS1
  | T_Sense => Disabled
  | T_McuSel => AppMCU
  | T_int | T_long => 0%Z
  end.

Definition convertible (a b : ty) : bool :=
  match a, b with
  | T_int, T_long | T_long, T_int => true
  | _, _ => false
  end.

(** [long] to [int] keeps the low 32 bits; [int] to [long] keeps the
    value.  No other conversion exists. *)
Definition convert (a b : ty) : Val a → Val b :=
  match a, b return Val a → Val b with
  | T_int, T_long => λ z : Z, z
  | T_long, T_int => λ z : Z, ((z + 2 ^ 31) `mod` 2 ^ 32 - 2 ^ 31)%Z
  | _, b' => λ _, value_init b'
  end.

Definition param : Type := param Val.
Definition val (t : ty) (v : Val t) : param := existT t v.

Definition check := check Val convertible.
Definition no_duplicates := no_duplicates Val convertible.
Definition extract := extract Val convertible convert.

(** *** The class [Gpio] of the Readme, as far as its pack goes

    [template <..., const auto... params> requires(...) class Gpio]: the
    constraint of the declaration and the five constants of its body. *)

Definition allowed_first : ty := T_Input.
Definition allowed_rest : list ty := [T_Pull; T_Drive; T_Sense; T_McuSel].

(** The [requires] clause.  Both operands of [&&] are compiled. *)
Definition Gpio_requires (params : list param) : option bool :=
  c ← check allowed_first allowed_rest params;
  n ← no_duplicates params;
  Some (c && n).

Record constants : Set := Constants {
  INPUT : Input;
  PULL : Pull;
  DRIVE : Drive;
  SENSE : Sense;
  MCUSEL : McuSel
}.

(** The [static constexpr] members: [INPUT] has the default
    [Input::Disconnect], the others are value-initialized. *)
Definition Gpio_constants (params : list param) : option constants :=
  i ← extract T_Input (value_default Val value_init T_Input (Some Disconnect)) params;
  p ← extract T_Pull (value_default Val value_init T_Pull None) params;
  d ← extract T_Drive (value_default Val value_init T_Drive None) params;
  s ← extract T_Sense (value_default Val value_init T_Sense None) params;
  m ← extract T_McuSel (value_default Val value_init T_McuSel None) params;
  Some (Constants i p d s m).

(** An instantiation of the class: its constants when the constraint is
    satisfied, [None] when the program is rejected. *)
Definition Gpio (params : list param) : option constants :=
  r ← Gpio_requires params;
  if r : bool then Gpio_constants params else None.

(** The defaults of the five constants, and the constant of the class that
    holds the setting of a given type. *)
Definition default_of (t : ty) : Val t :=
  match t with
  | T_Input => Disconnect
  | t' => value_init t'
  end.

Definition setting (c : constants) (t : ty) : option (Val t) :=
  match t with
  | T_Input => Some (INPUT c)
  | T_Pull => Some (PULL c)
  | T_Drive => Some (DRIVE c)
  | T_Sense => Some (SENSE c)
  | T_McuSel => Some (MCUSEL c)
  | T_int | T_long => None
  end.
End Gpio.

(** ** Which overload is selected *)

Section Selection.
Context {Ty : Type} `{!EqDecision Ty}.
Variable convertible : Ty → Ty → bool.

Lemma conversions_pack (env : list (nat * Ty)) (args : list Ty) :
  conversions convertible env [] true args = Some (const Identity <$> args).
Proof.
  induction args as [|A args IH]; simpl; [done|]. by rewrite IH.
Qed.

Lemma deduces_packs (env : list (nat * parm Ty)) (n : nat) :
  deduces env [] true [] true n = true.
Proof. induction n as [|n IH]; simpl; [done|]. by rewrite IH. Qed.

Lemma all2_identity (l : list Ty) :
  all2 ics_not_worse (const Identity <$> l) (const Identity <$> l) = true.
Proof. induction l; simpl; [done|]. done. Qed.

Lemma some2_identity (l : list Ty) :
  some2 ics_strictly_better (const Identity <$> l) (const Identity <$> l) = false.
Proof. induction l; simpl; [done|]. done. Qed.

Lemma standard_conversion_same (A : Ty) :
  standard_conversion convertible A A = Some Identity.
Proof. unfold standard_conversion. by rewrite decide_True. Qed.

Lemma standard_conversion_other (A T : Ty) :
  A ≠ T →
  standard_conversion convertible A T
  = if convertible A T then Some Conversion else None.
Proof. intros H. unfold standard_conversion. by rewrite decide_False. Qed.

Ltac resolve :=
  unfold select, winners, better, viable, more_specialized,
    at_least_as_specialized; simpl;
  rewrite ?conversions_pack, ?standard_conversion_same; simpl;
  rewrite ?deduces_packs, ?all2_identity, ?some2_identity; simpl.

Lemma select_list_contains_param_v (TypeFirst A : Ty) :
  select convertible (list_contains_param_v_overloads TypeFirst) [A]
  = Some (if decide (A = TypeFirst) then lcp_TypeFirst else lcp_Value).
Proof.
  destruct (decide (A = TypeFirst)) as [->|Hne].
  - by resolve.
  - resolve. rewrite standard_conversion_other by done.
    by destruct (convertible A TypeFirst).
Qed.

Lemma select_params_types_v_nil :
  select convertible params_types_v_overloads [] = Some pt_none.
Proof. done. Qed.

Lemma select_params_types_v_cons (A : Ty) (l : list Ty) :
  select convertible params_types_v_overloads (A :: l) = Some pt_First_Rest.
Proof. by resolve. Qed.

Lemma select_check_nil : select convertible check_overloads [] = Some check_none.
Proof. done. Qed.

Lemma select_check_cons (A : Ty) (l : list Ty) :
  select convertible check_overloads (A :: l) = Some check_First_Rest.
Proof. by resolve. Qed.

Lemma select_is_same_v (A B : Ty) :
  select convertible is_same_v_overloads [A; B]
  = Some (if decide (A = B) then same_T_T else same_T_U).
Proof.
  destruct (decide (A = B)) as [->|Hne].
  - resolve. by rewrite !decide_True.
  - resolve. rewrite decide_False by done. done.
Qed.

Lemma select_is_duplicates_v_nil :
  select convertible is_duplicates_v_overloads [] = Some dup_none.
Proof. done. Qed.

Lemma select_is_duplicates_v_one (A : Ty) :
  select convertible is_duplicates_v_overloads [A] = Some dup_First.
Proof. done. Qed.

Lemma select_is_duplicates_v_more (A B : Ty) (l : list Ty) :
  select convertible is_duplicates_v_overloads (A :: B :: l)
  = Some dup_First_Rest.
Proof. by resolve. Qed.

Lemma select_no_duplicates_nil :
  select convertible no_duplicates_overloads [] = Some nodup_none.
Proof. done. Qed.

Lemma select_no_duplicates_one (A : Ty) :
  select convertible no_duplicates_overloads [A] = Some nodup_First.
Proof. done. Qed.

Lemma select_no_duplicates_more (A B : Ty) (l : list Ty) :
  select convertible no_duplicates_overloads (A :: B :: l)
  = Some nodup_First_Rest.
Proof. by resolve. Qed.

Lemma select_extract_nil (T : Ty) :
  select convertible (extract_overloads T) [] = Some ext_none.
Proof. done. Qed.

Lemma select_extract_one (T A : Ty) :
  select convertible (extract_overloads T) [A]
  = Some (if decide (A = T) then ext_Type else ext_First).
Proof.
  destruct (decide (A = T)) as [->|Hne].
  - by resolve.
  - resolve. rewrite standard_conversion_other by done.
    by destruct (convertible A T).
Qed.

Lemma select_extract_more (T A B : Ty) (l : list Ty) :
  select convertible (extract_overloads T) (A :: B :: l)
  = Some (if decide (A = T) then ext_Type_Rest else ext_First_Rest).
Proof.
  destruct (decide (A = T)) as [->|Hne].
  - by resolve.
  - resolve. rewrite standard_conversion_other by done.
    destruct (convertible A T); simpl; by resolve.
Qed.
End Selection.

(** ** What the member functions compute *)

Section Characterisation.
Context {Ty : Type} `{!EqDecision Ty}.
Variable Val : Ty → Type.
Variable convertible : Ty → Ty → bool.
Variable convert : ∀ A B : Ty, Val A → Val B.

Implicit Types (pack rest : list (param Val)) (first v a b : param Val).
Implicit Types (TypeFirst T : Ty) (TypesRest : list Ty).

Lemma list_contains_param_v_spec TypeFirst TypesRest v :
  list_contains_param_v Val convertible TypeFirst TypesRest v
  = Some (bool_decide (type_of v ∈ TypeFirst :: TypesRest)).
Proof.
  revert TypeFirst.
  induction TypesRest as [|T Ts IH]; intros TypeFirst;
    cbn [list_contains_param_v]; rewrite select_list_contains_param_v;
    destruct (decide (type_of v = TypeFirst)) as [Heq|Hne].
  - rewrite bool_decide_eq_true_2; [done|]. rewrite Heq. apply list_elem_of_here.
  - rewrite bool_decide_eq_false_2; [done|].
    by intros ?%list_elem_of_singleton.
  - rewrite bool_decide_eq_true_2; [done|]. rewrite Heq. apply list_elem_of_here.
  - rewrite IH. f_equal. apply bool_decide_ext.
    rewrite (elem_of_cons (T :: Ts)). intuition congruence.
Qed.

Lemma params_types_v_run_cons TypeFirst TypesRest first rest :
  params_types_v_run Val convertible TypeFirst TypesRest (first :: rest)
  = c ← list_contains_param_v Val convertible TypeFirst TypesRest first;
    '(tr, r) ← params_types_v_run Val convertible TypeFirst TypesRest rest;
    Some (if c : bool then pt_First_Rest :: tr else [pt_First_Rest],
            if c : bool then r else false).
Proof.
  change (params_types_v_run Val convertible TypeFirst TypesRest (first :: rest))
    with (match select convertible params_types_v_overloads
                  (type_of first :: types_of rest) with
          | Some pt_First_Rest =>
              c ← list_contains_param_v Val convertible TypeFirst TypesRest first;
              '(tr, r) ← params_types_v_run Val convertible TypeFirst TypesRest rest;
              Some (if c : bool then pt_First_Rest :: tr else [pt_First_Rest],
            if c : bool then r else false)
          | _ => None
          end).
  by rewrite select_params_types_v_cons.
Qed.

Lemma params_types_v_run_spec TypeFirst TypesRest pack :
  ∃ trace,
    params_types_v_run Val convertible TypeFirst TypesRest pack
    = Some (trace,
            bool_decide (Forall (λ v, type_of v ∈ TypeFirst :: TypesRest) pack))
    ∧ returns_within pt_First_Rest (length pack) trace
    ∧ (Forall (λ v, type_of v ∈ TypeFirst :: TypesRest) pack →
       trace = replicate (length pack) pt_First_Rest ++ [pt_none]).
Proof.
  induction pack as [|first rest IH].
  - exists [pt_none]. split_and!; [done| |done]. by exists 0, pt_none.
  - destruct IH as (trace & Hrun & (steps & last & -> & Hsteps) & Hall).
    rewrite params_types_v_run_cons, list_contains_param_v_spec, Hrun.
    cbn [mbind option_bind].
    assert ((if bool_decide (type_of first ∈ TypeFirst :: TypesRest)
             then bool_decide (Forall (λ v, type_of v ∈ TypeFirst :: TypesRest) rest)
             else false)
            = bool_decide (Forall (λ v, type_of v ∈ TypeFirst :: TypesRest)
                             (first :: rest))) as ->.
    { rewrite (bool_decide_ext _ _ (Forall_cons _ first rest)), bool_decide_and.
      by destruct (bool_decide (type_of first ∈ _)). }
    destruct (decide (type_of first ∈ TypeFirst :: TypesRest)) as [Hin|Hout].
    + rewrite (bool_decide_eq_true_2 (type_of first ∈ _)) by done.
      eexists. split_and!; [done| |].
      * exists (S steps), last. split; [done|simpl; lia].
      * intros [_ Hrest]%Forall_cons. simpl. by rewrite (Hall Hrest).
    + rewrite (bool_decide_eq_false_2 (type_of first ∈ _)) by done.
      eexists. split_and!; [done| |].
      * exists 0, pt_First_Rest. split; [done|simpl; lia].
      * by intros [? _]%Forall_cons.
Qed.

Lemma check_run TypeFirst TypesRest pack :
  check Val convertible TypeFirst TypesRest pack
  = snd <$> params_types_v_run Val convertible TypeFirst TypesRest pack.
Proof.
  destruct pack as [|first rest]; [done|].
  unfold check. change (types_of (first :: rest)) with (type_of first :: types_of rest).
  by rewrite select_check_cons.
Qed.

Lemma check_spec TypeFirst TypesRest pack :
  check Val convertible TypeFirst TypesRest pack
  = Some (bool_decide (Forall (λ v, type_of v ∈ TypeFirst :: TypesRest) pack)).
Proof.
  rewrite check_run.
  by destruct (params_types_v_run_spec TypeFirst TypesRest pack) as (? & -> & _).
Qed.

Lemma is_same_v_spec a b :
  is_same_v Val convertible a b = Some (bool_decide (type_of a = type_of b)).
Proof.
  unfold is_same_v. rewrite select_is_same_v.
  by destruct (decide (type_of a = type_of b));
    [rewrite bool_decide_eq_true_2|rewrite bool_decide_eq_false_2].
Qed.

Lemma fold_and_is_same_v first rest :
  fold_and ((λ r, negb <$> is_same_v Val convertible first r) <$> rest)
  = Some (bool_decide (type_of first ∉ types_of rest)).
Proof.
  induction rest as [|r rest IH]; [done|].
  rewrite fmap_cons. cbn [fold_and]. rewrite is_same_v_spec, IH.
  - cbn [fmap option_fmap option_map mbind option_bind]. f_equal.
    change (types_of (r :: rest)) with (type_of r :: types_of rest).
    rewrite (bool_decide_ext _ _ (not_elem_of_cons _ _ _)), bool_decide_and.
    f_equal. by rewrite bool_decide_not.
Qed.

Lemma is_duplicates_v_run_more first v rest :
  is_duplicates_v_run Val convertible (first :: v :: rest)
  = d ← fold_and ((λ r, negb <$> is_same_v Val convertible first r) <$> v :: rest);
    '(tr, r) ← is_duplicates_v_run Val convertible (v :: rest);
    Some (if d : bool then dup_First_Rest :: tr else [dup_First_Rest], d && r).
Proof.
  change (is_duplicates_v_run Val convertible (first :: v :: rest))
    with (match select convertible is_duplicates_v_overloads
                  (type_of first :: type_of v :: types_of rest) with
          | Some dup_First_Rest =>
              d ← fold_and ((λ r, negb <$> is_same_v Val convertible first r)
                            <$> v :: rest);
              '(tr, r) ← is_duplicates_v_run Val convertible (v :: rest);
              Some (if d : bool then dup_First_Rest :: tr else [dup_First_Rest], d && r)
          | _ => None
          end).
  by rewrite select_is_duplicates_v_more.
Qed.

Lemma is_duplicates_v_run_spec pack :
  ∃ trace,
    is_duplicates_v_run Val convertible pack
    = Some (trace, bool_decide (NoDup (types_of pack)))
    ∧ returns_within dup_First_Rest (length pack) trace.
Proof.
  induction pack as [|first [|v rest] IH].
  - exists [dup_none]. split; [done|]. by exists 0, dup_none.
  - exists [dup_First]. split; [done|]. exists 0, dup_First. split; [done|simpl; lia].
  - destruct IH as (trace & Hrun & steps & last & -> & Hsteps).
    rewrite is_duplicates_v_run_more, fold_and_is_same_v, Hrun.
    cbn [mbind option_bind].
    assert (bool_decide (type_of first ∉ types_of (v :: rest))
            && bool_decide (NoDup (types_of (v :: rest)))
            = bool_decide (NoDup (types_of (first :: v :: rest)))) as Hb.
    { rewrite <- bool_decide_and. apply bool_decide_ext. symmetry.
      apply NoDup_cons. }
    rewrite Hb.
    destruct (decide (type_of first ∉ types_of (v :: rest))) as [Hin|Hout].
    + rewrite (bool_decide_eq_true_2 (type_of first ∉ _)) by done.
      eexists. split; [done|]. exists (S steps), last.
      split; [done|simpl in *; lia].
    + rewrite (bool_decide_eq_false_2 (type_of first ∉ _)) by done.
      eexists. split; [done|]. exists 0, dup_First_Rest.
      split; [done|simpl; lia].
Qed.

Lemma no_duplicates_run pack :
  no_duplicates Val convertible pack
  = snd <$> is_duplicates_v_run Val convertible pack.
Proof.
  destruct pack as [|first [|v rest]]; [done..|].
  unfold no_duplicates.
  change (types_of (first :: v :: rest))
    with (type_of first :: type_of v :: types_of rest).
  by rewrite select_no_duplicates_more.
Qed.

Lemma no_duplicates_spec pack :
  no_duplicates Val convertible pack
  = Some (bool_decide (NoDup (types_of pack))).
Proof.
  rewrite no_duplicates_run.
  by destruct (is_duplicates_v_run_spec pack) as (? & -> & _).
Qed.

(** *** The extractor *)

Lemma pass_same T (x : Val T) : pass Val convert T (existT T x) = x.
Proof.
  unfold pass. destruct (decide _) as [e|Hne]; [|done].
  by rewrite (proof_irrel e eq_refl).
Qed.

Section value.
Variable T : Ty.
Variable defaultValue : Val T.

Lemma extract_run_hit (x : Val T) rest :
  extract_run Val convertible convert T defaultValue (existT T x :: rest)
  = Some ([match rest with [] => ext_Type | _ => ext_Type_Rest end], x).
Proof.
  destruct rest as [|v rest]; cbn -[select pass].
  - rewrite select_extract_one, decide_True by done. by rewrite pass_same.
  - rewrite select_extract_more, decide_True by done. by rewrite pass_same.
Qed.

Lemma extract_run_miss first rest :
  type_of first ≠ T →
  extract_run Val convertible convert T defaultValue (first :: rest)
  = match rest with
    | [] => Some ([ext_First], defaultValue)
    | _ :: _ =>
        '(tr, r) ← extract_run Val convertible convert T defaultValue rest;
        Some (ext_First_Rest :: tr, r)
    end.
Proof.
  intros Hne. destruct rest as [|v rest].
  - cbn -[select pass]. by rewrite select_extract_one, decide_False.
  - change (extract_run Val convertible convert T defaultValue (first :: v :: rest))
      with (match select convertible (extract_overloads T)
                    (type_of first :: type_of v :: types_of rest) with
            | Some ext_Type_Rest => Some ([ext_Type_Rest], pass Val convert T first)
            | Some ext_First_Rest =>
                '(tr, r) ← extract_run Val convertible convert T defaultValue
                             (v :: rest);
                Some (ext_First_Rest :: tr, r)
            | _ => None
            end).
    by rewrite select_extract_more, decide_False.
Qed.

Lemma extract_nil : extract Val convertible convert T defaultValue [] = Some defaultValue.
Proof. done. Qed.

Lemma extract_hit (x : Val T) rest :
  extract Val convertible convert T defaultValue (existT T x :: rest) = Some x.
Proof. unfold extract. by rewrite extract_run_hit. Qed.

Lemma extract_miss first rest :
  type_of first ≠ T →
  extract Val convertible convert T defaultValue (first :: rest)
  = extract Val convertible convert T defaultValue rest.
Proof.
  intros Hne. unfold extract. rewrite extract_run_miss by done.
  destruct rest as [|v rest]; [done|].
  by destruct (extract_run _ _ _ _ _ (v :: rest)) as [[tr r]|].
Qed.

Lemma extract_absent pack :
  Forall (λ a, type_of a ≠ T) pack →
  extract Val convertible convert T defaultValue pack = Some defaultValue.
Proof.
  induction 1 as [|first rest Hne _ IH]; [done|].
  by rewrite extract_miss.
Qed.

Lemma extract_first before (x : Val T) after :
  Forall (λ a, type_of a ≠ T) before →
  extract Val convertible convert T defaultValue (before ++ existT T x :: after)
  = Some x.
Proof.
  induction 1 as [|first rest Hne _ IH]; simpl.
  - apply extract_hit.
  - by rewrite extract_miss.
Qed.
End value.
End Characterisation.

(** ** The properties of the specification *)

Section Properties.
Context {Ty : Type} `{!EqDecision Ty}.
Variable Val : Ty → Type.
Variable convertible : Ty → Ty → bool.
Variable convert : ∀ A B : Ty, Val A → Val B.
Variable value_init : ∀ T : Ty, Val T.

Implicit Types (pack rest before mid after : list (param Val)).
Implicit Types (first v a b : param Val).
Implicit Types (TypeFirst T : Ty) (TypesRest : list Ty).

Lemma of_type_none T pack :
  Forall (λ a, type_of a ≠ T) pack → of_type T pack = [].
Proof.
  unfold of_type. induction 1 as [|a rest Hne _ IH]; [done|].
  by rewrite filter_cons_False.
Qed.

Lemma extract_of_type T (d : Val T) pack :
  extract Val convertible convert T d pack
  = Some (default d (pass Val convert T <$> head (of_type T pack))).
Proof.
  unfold of_type. induction pack as [|[A x] rest IH]; [done|].
  destruct (decide (A = T)) as [->|Hne].
  - rewrite extract_hit, filter_cons_True by done. simpl. by rewrite pass_same.
  - by rewrite extract_miss, filter_cons_False.
Qed.

Lemma of_type_at_most_one T pack :
  NoDup (types_of pack) → length (of_type T pack) ≤ 1.
Proof.
  unfold of_type. induction pack as [|a rest IH]; [simpl; lia|].
  change (types_of (a :: rest)) with (type_of a :: types_of rest).
  intros [Hnotin Hnd]%NoDup_cons.
  destruct (decide (type_of a = T)) as [Heq|Hne].
  - rewrite filter_cons_True by done.
    fold (of_type T rest). rewrite of_type_none; [simpl; lia|].
    apply Forall_forall. intros b Hb Hb'. apply Hnotin.
    rewrite Heq, <- Hb'. unfold types_of. by apply list_elem_of_fmap_2.
  - rewrite filter_cons_False by done. auto.
Qed.

Lemma no_two_share_a_type pack :
  NoDup (types_of pack) ↔
  ∀ i j a b, pack !! i = Some a → pack !! j = Some b →
             type_of a = type_of b → i = j.
Proof.
  rewrite NoDup_alt. unfold types_of. split.
  - intros H i j a b Hi Hj Hab. apply (H i j (type_of a)).
    + by rewrite list_lookup_fmap, Hi.
    + by rewrite list_lookup_fmap, Hj, Hab.
  - intros H i j A [a [-> Hi]]%list_lookup_fmap_Some [b [Hab Hj]]%list_lookup_fmap_Some.
    by apply (H i j a b).
Qed.

(** C1. [types<TypeFirst, TypesRest...>::check(pack)] is [true] exactly when
    the static type of every element of the pack is one of the types of the
    list, compared by identity.  In particular one element whose type is
    outside the list makes it [false], and a pack all of whose types are in
    the list makes it [true]. *)
Theorem check_membership TypeFirst TypesRest pack :
  (∃ r : bool,
     check Val convertible TypeFirst TypesRest pack = Some r ∧
     (r = true ↔ ∀ v, v ∈ pack → type_of v ∈ TypeFirst :: TypesRest))
  ∧ (∀ v, v ∈ pack → type_of v ∉ TypeFirst :: TypesRest →
       check Val convertible TypeFirst TypesRest pack = Some false)
  ∧ ((∀ v, v ∈ pack → type_of v ∈ TypeFirst :: TypesRest) →
       check Val convertible TypeFirst TypesRest pack = Some true).
Proof.
  rewrite check_spec. split_and!.
  - eexists. split; [done|]. by rewrite bool_decide_eq_true, Forall_forall.
  - intros v Hv Hout. f_equal. apply bool_decide_eq_false_2.
    rewrite Forall_forall. intros Hall. by apply Hout, Hall.
  - intros Hall. f_equal. apply bool_decide_eq_true_2. by apply Forall_forall.
Qed.

(** C2. [no_duplicates(pack)] is [true] exactly when no two elements of the
    pack have the same static type.  Two elements of one type make it
    [false] whatever their values are, equal or not; a pack of pairwise
    distinct types makes it [true]. *)
Theorem no_duplicates_types pack :
  (∃ r : bool,
     no_duplicates Val convertible pack = Some r ∧
     (r = true ↔
      ∀ i j a b, pack !! i = Some a → pack !! j = Some b →
                 type_of a = type_of b → i = j))
  ∧ (∀ T (x y : Val T) before mid after,
       pack = before ++ existT T x :: mid ++ existT T y :: after →
       no_duplicates Val convertible pack = Some false)
  ∧ (NoDup (types_of pack) → no_duplicates Val convertible pack = Some true).
Proof.
  rewrite no_duplicates_spec. split_and!.
  - eexists. split; [done|]. by rewrite bool_decide_eq_true, no_two_share_a_type.
  - intros T x y before mid after ->. f_equal. apply bool_decide_eq_false_2.
    unfold types_of. rewrite fmap_app, fmap_cons, fmap_app, fmap_cons.
    intros (_ & _ & [Hnotin _]%NoDup_cons)%NoDup_app. apply Hnotin.
    apply elem_of_app. right. apply list_elem_of_here.
  - intros Hnd. f_equal. by apply bool_decide_eq_true_2.
Qed.

(** C3. When the pack has an element of static type [Type], [extract]
    returns the first one in the order of the pack, whatever follows it,
    other elements of type [Type] included. *)
Theorem extract_first_match T (defaultValue x : Val T) before after :
  (∀ a, a ∈ before → type_of a ≠ T) →
  extract Val convertible convert T defaultValue (before ++ existT T x :: after)
  = Some x.
Proof. intros H. apply extract_first. by apply Forall_forall. Qed.

(** C4. When no element of the pack has static type [Type], the empty pack
    included, [extract] returns [defaultValue]: the value-initialized
    [Type{}] when the template is given no second argument, and the
    argument as it is when it is given one. *)
Theorem extract_default T (d : Val T) pack :
  (∀ a, a ∈ pack → type_of a ≠ T) →
  extract Val convertible convert T d pack = Some d
  ∧ extract Val convertible convert T (value_default Val value_init T None) pack
    = Some (value_init T)
  ∧ extract Val convertible convert T (value_default Val value_init T (Some d)) pack
    = Some d.
Proof.
  intros H%Forall_forall. split_and!; by apply extract_absent.
Qed.

(** C5. On the empty pack [check()] is [true] for every non-empty list of
    types, [no_duplicates()] is [true] and [extract()] is [defaultValue]. *)
Theorem empty_pack TypeFirst TypesRest T (defaultValue : Val T) :
  check Val convertible TypeFirst TypesRest [] = Some true
  ∧ no_duplicates Val convertible [] = Some true
  ∧ extract Val convertible convert T defaultValue [] = Some defaultValue.
Proof. done. Qed.

(** C6. Permuting the pack changes neither [check] nor [no_duplicates].  It
    leaves [extract] unchanged unless it changes which element is the first
    among several of the target type: with at most one such element, or
    with the same first one, the result is the same; so it is for every
    pack [no_duplicates] accepts. *)
Theorem permutation_invariance TypeFirst TypesRest pack pack' :
  pack ≡ₚ pack' →
  check Val convertible TypeFirst TypesRest pack
  = check Val convertible TypeFirst TypesRest pack'
  ∧ no_duplicates Val convertible pack = no_duplicates Val convertible pack'
  ∧ (∀ T (d : Val T),
       length (of_type T pack) ≤ 1
       ∨ head (of_type T pack) = head (of_type T pack') →
       extract Val convertible convert T d pack
       = extract Val convertible convert T d pack')
  ∧ (∀ T (d : Val T),
       no_duplicates Val convertible pack = Some true →
       extract Val convertible convert T d pack
       = extract Val convertible convert T d pack').
Proof.
  intros Hperm.
  assert (∀ T (d : Val T),
            length (of_type T pack) ≤ 1
            ∨ head (of_type T pack) = head (of_type T pack') →
            extract Val convertible convert T d pack
            = extract Val convertible convert T d pack') as Hextract.
  { intros T d Hfirst. rewrite !extract_of_type.
    assert (head (of_type T pack) = head (of_type T pack')) as ->; [|done].
    destruct Hfirst as [Hone|Hhead]; [|done].
    assert (of_type T pack ≡ₚ of_type T pack') as Hof
      by (unfold of_type; by rewrite Hperm).
    destruct (of_type T pack) as [|a [|b l]]; simpl in Hone; [| |lia].
    - by apply Permutation_nil_l in Hof as <-.
    - by apply Permutation_singleton_l in Hof as <-. }
  split_and!.
  - rewrite !check_spec. f_equal. apply bool_decide_ext. by rewrite Hperm.
  - rewrite !no_duplicates_spec. f_equal. apply bool_decide_ext.
    unfold types_of. by rewrite Hperm.
  - done.
  - intros T d Hnd. apply Hextract. left. apply of_type_at_most_one.
    rewrite no_duplicates_spec in Hnd. injection Hnd as Hnd.
    by apply bool_decide_eq_true in Hnd.
Qed.

Lemma extract_skip T (d : Val T) before v after :
  type_of v ≠ T →
  extract Val convertible convert T d (before ++ v :: after)
  = extract Val convertible convert T d (before ++ after).
Proof.
  intros Hne. rewrite !extract_of_type. unfold of_type.
  by rewrite !filter_app, filter_cons_False.
Qed.

(** C7. The three operations compare static types by identity.  A value
    whose type only converts implicitly to a type of the list is no member
    for [check]; two values of different types that convert to each other
    are no duplicate for [no_duplicates]; a value whose type converts to
    [Type] without being [Type] is passed over by [extract], which returns
    what it returns without that value. *)
Theorem exact_type_identity :
  (∀ TypeFirst TypesRest before v after A,
     A ∈ TypeFirst :: TypesRest →
     convertible (type_of v) A = true →
     type_of v ∉ TypeFirst :: TypesRest →
     check Val convertible TypeFirst TypesRest (before ++ v :: after)
     = Some false)
  ∧ (∀ a b,
       convertible (type_of a) (type_of b) = true →
       convertible (type_of b) (type_of a) = true →
       type_of a ≠ type_of b →
       is_same_v Val convertible a b = Some false
       ∧ no_duplicates Val convertible [a; b] = Some true)
  ∧ (∀ T (d : Val T) before v after,
       convertible (type_of v) T = true →
       type_of v ≠ T →
       extract Val convertible convert T d (before ++ v :: after)
       = extract Val convertible convert T d (before ++ after)
       ∧ extract Val convertible convert T d [v] = Some d).
Proof.
  split_and!.
  - intros TypeFirst TypesRest before v after A _ _ Hout.
    rewrite check_spec. f_equal. apply bool_decide_eq_false_2.
    rewrite Forall_app, Forall_cons. by intros (_ & Hin & _).
  - intros a b _ _ Hne. rewrite is_same_v_spec, no_duplicates_spec.
    split; f_equal.
    + by apply bool_decide_eq_false_2.
    + apply bool_decide_eq_true_2. apply NoDup_cons. split.
      * by intros ?%list_elem_of_singleton.
      * apply NoDup_singleton.
  - intros T d before v after _ Hne. split.
    + by apply extract_skip.
    + by rewrite extract_miss.
Qed.

(** C8. [check] and [no_duplicates] depend on the static types of the pack
    only: two packs with the same sequence of types get the same answers,
    whatever the values are. *)
Theorem validation_ignores_values TypeFirst TypesRest pack pack' :
  types_of pack = types_of pack' →
  check Val convertible TypeFirst TypesRest pack
  = check Val convertible TypeFirst TypesRest pack'
  ∧ no_duplicates Val convertible pack = no_duplicates Val convertible pack'.
Proof.
  intros Htypes. rewrite !check_spec, !no_duplicates_spec, Htypes. split; [|done].
  f_equal. apply bool_decide_ext.
  assert (∀ l : list (param Val),
            Forall (λ v, type_of v ∈ TypeFirst :: TypesRest) l
            ↔ Forall (λ A, A ∈ TypeFirst :: TypesRest) (types_of l)) as Hfmap
    by (intros l; unfold types_of; by rewrite Forall_fmap).
  by rewrite !Hfmap, Htypes.
Qed.



(** C10. When the pack has an element of static type [Type], what [extract]
    returns does not depend on [defaultValue]. *)
Theorem extract_ignores_default T (d1 d2 : Val T) pack :
  (∃ a, a ∈ pack ∧ type_of a = T) →
  extract Val convertible convert T d1 pack
  = extract Val convertible convert T d2 pack.
Proof.
  intros (a & Ha & Heq). rewrite !extract_of_type.
  assert (a ∈ of_type T pack) as Hof by by apply list_elem_of_filter.
  by destruct (of_type T pack); [apply elem_of_nil in Hof|].
Qed.
End Properties.

(** ** The properties on the GPIO configuration *)

Section GpioInstances.
Import Gpio.

(** An allowed set and packs inside and outside of it. *)
Lemma check_membership_witness :
check T_Input [T_Pull; T_Drive] [val T_Input Connect; val T_Drive SOS1]
= Some true
∧ check T_Input [T_Pull; T_Drive] [val T_Input Connect; val T_Sense High]
  = Some false.
Proof.
split.
- apply (proj2 (proj2 (check_membership Val convertible T_Input
                         [T_Pull; T_Drive]
                         [val T_Input Connect; val T_Drive SOS1]))).
  apply Forall_forall. repeat constructor.
- apply (proj1 (proj2 (check_membership Val convertible T_Input
                         [T_Pull; T_Drive]
                         [val T_Input Connect; val T_Sense High]))
           (val T_Sense High)).
  + apply list_elem_of_further, list_elem_of_here.
  + compute_done.
Defined.

(** Two [Input] constants of the same value are a duplicate. *)
Lemma no_duplicates_types_witness :
no_duplicates [val T_Input Connect; val T_Pull Up; val T_Input Connect]
= Some false
∧ no_duplicates [val T_Input Connect; val T_Pull Up; val T_Drive SOS1]
  = Some true.
Proof.
split.
- apply (proj1 (proj2 (no_duplicates_types Val convertible
                         [val T_Input Connect; val T_Pull Up;
                          val T_Input Connect]))
           T_Input Connect Connect [] [val T_Pull Up] []).
  reflexivity.
- apply (proj2 (proj2 (no_duplicates_types Val convertible
                         [val T_Input Connect; val T_Pull Up;
                          val T_Drive SOS1]))).
  compute_done.
Defined.

(** The first of two [Pull] constants is extracted. *)
Lemma extract_first_match_witness :
(∀ a, a ∈ [val T_Input Connect] → type_of a ≠ T_Pull)
∧ extract T_Pull No
    ([val T_Input Connect] ++ val T_Pull Up :: [val T_Drive SOS1; val T_Pull Down])
  = Some Up.
Proof.
assert (∀ a, a ∈ [val T_Input Connect] → type_of a ≠ T_Pull) as H.
{ apply Forall_forall. repeat constructor. discriminate. }
split; [exact H|].
exact (extract_first_match Val convertible convert T_Pull No Up
         [val T_Input Connect] [val T_Drive SOS1; val T_Pull Down] H).
Defined.

(** [Input] configured with the default [Input::Disconnect], whose
  value-initialized constant is [Input::Connect]. *)
Lemma extract_default_witness :
(∀ a, a ∈ [val T_Pull Up; val T_Drive SOS1] → type_of a ≠ T_Input)
∧ extract T_Input Disconnect [val T_Pull Up; val T_Drive SOS1] = Some Disconnect
∧ extract T_Input (value_default Val value_init T_Input None)
    [val T_Pull Up; val T_Drive SOS1] = Some Connect
∧ extract T_Input (value_default Val value_init T_Input (Some Disconnect))
    [val T_Pull Up; val T_Drive SOS1] = Some Disconnect.
Proof.
assert (∀ a, a ∈ [val T_Pull Up; val T_Drive SOS1] → type_of a ≠ T_Input) as H.
{ apply Forall_forall. repeat constructor; discriminate. }
split; [exact H|].
exact (extract_default Val convertible convert value_init T_Input Disconnect
         [val T_Pull Up; val T_Drive SOS1] H).
Defined.

(** Swapping the first two constants of a well-formed pack. *)
Lemma permutation_invariance_witness :
[val T_Input Connect; val T_Pull Up; val T_Drive SOS1]
≡ₚ [val T_Pull Up; val T_Input Connect; val T_Drive SOS1]
∧ check T_Input [T_Pull; T_Drive]
    [val T_Input Connect; val T_Pull Up; val T_Drive SOS1]
  = check T_Input [T_Pull; T_Drive]
      [val T_Pull Up; val T_Input Connect; val T_Drive SOS1]
∧ no_duplicates [val T_Input Connect; val T_Pull Up; val T_Drive SOS1]
  = no_duplicates [val T_Pull Up; val T_Input Connect; val T_Drive SOS1]
∧ extract T_Pull No [val T_Input Connect; val T_Pull Up; val T_Drive SOS1]
  = extract T_Pull No [val T_Pull Up; val T_Input Connect; val T_Drive SOS1].
Proof.
assert ([val T_Input Connect; val T_Pull Up; val T_Drive SOS1]
        ≡ₚ [val T_Pull Up; val T_Input Connect; val T_Drive SOS1]) as H
  by apply perm_swap.
destruct (permutation_invariance Val convertible convert T_Input
            [T_Pull; T_Drive] _ _ H) as (Hcheck & Hnodup & _ & Hextract).
split_and!; [exact H|exact Hcheck|exact Hnodup|].
apply (Hextract T_Pull No). reflexivity.
Defined.

(** [int] and [long] convert to each other: an [int] is no member of a list
  that has [long] only, an [int] and a [long] are no duplicate, and
  [value<long, 7>] passes over an [int]. *)
Lemma exact_type_identity_witness :
check T_long [] [val T_int 3%Z] = Some false
∧ no_duplicates [val T_int 3%Z; val T_long 3%Z] = Some true
∧ extract T_long 7%Z [val T_int 3%Z] = Some 7%Z.
Proof.
destruct (exact_type_identity Val convertible convert)
  as (Hcheck & Hnodup & Hextract).
split_and!.
- apply (Hcheck T_long [] [] (val T_int 3%Z) [] T_long).
  + apply list_elem_of_here.
  + reflexivity.
  + compute_done.
- apply (Hnodup (val T_int 3%Z) (val T_long 3%Z)); [reflexivity..|discriminate].
- apply (Hextract T_long 7%Z [] (val T_int 3%Z) []); [reflexivity|discriminate].
Defined.

(** Two packs of the same types and different values. *)
Lemma validation_ignores_values_witness :
types_of [val T_Input Connect; val T_Pull Up]
= types_of [val T_Input Disconnect; val T_Pull Down]
∧ check T_Input [T_Pull] [val T_Input Connect; val T_Pull Up]
  = check T_Input [T_Pull] [val T_Input Disconnect; val T_Pull Down]
∧ no_duplicates [val T_Input Connect; val T_Pull Up]
  = no_duplicates [val T_Input Disconnect; val T_Pull Down].
Proof.
split; [reflexivity|].
exact (validation_ignores_values Val convertible T_Input [T_Pull]
         [val T_Input Connect; val T_Pull Up]
         [val T_Input Disconnect; val T_Pull Down] eq_refl).
Defined.

(** A pack that has a [Pull], extracted with two different defaults. *)
Lemma extract_ignores_default_witness :
(∃ a, a ∈ [val T_Input Connect; val T_Pull Up] ∧ type_of a = T_Pull)
∧ extract T_Pull No [val T_Input Connect; val T_Pull Up]
  = extract T_Pull Down [val T_Input Connect; val T_Pull Up].
Proof.
assert (∃ a, a ∈ [val T_Input Connect; val T_Pull Up] ∧ type_of a = T_Pull) as H.
{ exists (val T_Pull Up). split; [|reflexivity].
  apply list_elem_of_further, list_elem_of_here. }
split; [exact H|].
exact (extract_ignores_default Val convertible convert T_Pull No Down
         [val T_Input Connect; val T_Pull Up] H).
Defined.

(** The examples of the specification, by evaluation. *)
Example extraction_default :
extract T_Pull No [val T_Input Connect; val T_Drive SOS1] = Some No.
Proof. reflexivity. Qed.

Example extraction_hit :
extract T_Pull No [val T_Input Connect; val T_Pull Up; val T_Drive SOS1]
= Some Up.
Proof. reflexivity. Qed.

Example extraction_chain :
extract_run Val convertible convert T_Pull No
  [val T_Input Connect; val T_Drive SOS1; val T_Pull Up; val T_Pull Down]
= Some ([ext_First_Rest; ext_First_Rest; ext_Type_Rest], Up).
Proof. reflexivity. Qed.

Example duplicates_chain :
  is_duplicates_v_run Val convertible
    [val T_Input Connect; val T_Pull Up; val T_Sense High; val T_Pull Down]
  = Some ([dup_First_Rest; dup_First_Rest], false).
Proof. reflexivity. Qed.

Example membership_chain :
  params_types_v_run Val convertible T_Input [T_Pull]
    [val T_Input Connect; val T_Sense High; val T_Pull Up]
  = Some ([pt_First_Rest; pt_First_Rest], false).
Proof. reflexivity. Qed.


End GpioInstances.

(** ** Further properties of the three operations *)

Section Composition.
Context {Ty : Type} `{!EqDecision Ty}.
Variable Val : Ty → Type.
Variable convertible : Ty → Ty → bool.
Variable convert : ∀ A B : Ty, Val A → Val B.

Implicit Types (pack rest before after p q : list (param Val)).
Implicit Types (first v a b : param Val).
Implicit Types (TypeFirst T : Ty) (TypesRest : list Ty).

Lemma distinct_types_bound (allowed : list Ty) pack :
  Forall (λ v, type_of v ∈ allowed) pack → NoDup (types_of pack) →
  length pack ≤ length allowed.
Proof.
  intros Hin Hnd. rewrite <- (length_fmap type_of pack). apply submseteq_length.
  apply NoDup_submseteq; [done|].
  intros A (a & -> & Ha)%list_elem_of_fmap.
  by apply (proj1 (Forall_forall _ _) Hin).
Qed.

(** A pack that passes both [check] and [no_duplicates] has no more elements
    than the list has types. *)
Theorem accepted_pack_length TypeFirst TypesRest pack :
  check Val convertible TypeFirst TypesRest pack = Some true →
  no_duplicates Val convertible pack = Some true →
  length pack ≤ S (length TypesRest).
Proof.
  rewrite check_spec, no_duplicates_spec.
  intros [= Hin%bool_decide_eq_true] [= Hnd%bool_decide_eq_true].
  by apply (distinct_types_bound (TypeFirst :: TypesRest)).
Qed.

Lemma extract_unique_element T (d x : Val T) pack :
  NoDup (types_of pack) → existT T x ∈ pack →
  extract Val convertible convert T d pack = Some x.
Proof.
  intros Hone%(of_type_at_most_one Val T) Hx.
  assert (existT T x ∈ of_type T pack) as Hof by by apply list_elem_of_filter.
  rewrite extract_of_type.
  destruct (of_type T pack) as [|a [|b l]]; simpl in Hone; [|  |lia].
  - by apply elem_of_nil in Hof.
  - apply list_elem_of_singleton in Hof as <-. simpl. by rewrite pass_same.
Qed.

(** In a pack without duplicates every element is what [extract] returns
    for its type, wherever it stands and whatever the default is. *)
Theorem extract_recovers_element T (d x : Val T) pack :
  no_duplicates Val convertible pack = Some true →
  existT T x ∈ pack →
  extract Val convertible convert T d pack = Some x.
Proof.
  rewrite no_duplicates_spec. intros [= Hnd%bool_decide_eq_true].
  by apply extract_unique_element.
Qed.

(** [extract] returns the default or the value of an element of the pack of
    static type [Type], never anything else. *)
Theorem extract_result_origin T (d r : Val T) pack :
  extract Val convertible convert T d pack = Some r →
  (r = d ∧ ∀ a, a ∈ pack → type_of a ≠ T) ∨ existT T r ∈ pack.
Proof.
  induction pack as [|[A x] rest IH].
  - intros [= <-]. left. split; [done|]. by intros a ?%elem_of_nil.
  - destruct (decide (A = T)) as [->|Hne].
    + rewrite extract_hit. intros [= <-]. right. apply list_elem_of_here.
    + rewrite extract_miss by done. intros [[-> Hall]|Hin]%IH.
      * left. split; [done|]. intros a [->|Ha]%elem_of_cons; [done|by apply Hall].
      * right. by apply list_elem_of_further.
Qed.

(** Extracting from two packs put one after the other is extracting from
    the first with, as default, what the second gives. *)
Theorem extract_app T (d : Val T) p q :
  extract Val convertible convert T d (p ++ q)
  = d' ← extract Val convertible convert T d q;
    extract Val convertible convert T d' p.
Proof.
  rewrite (extract_of_type _ _ _ T d q). simpl. rewrite !extract_of_type.
  unfold of_type. rewrite filter_app.
  by destruct (filter _ p).
Qed.

Lemma extract_Permutation T (d : Val T) pack (pack' : list (param Val)) :
  pack ≡ₚ pack' → NoDup (types_of pack) →
  extract Val convertible convert T d pack
  = extract Val convertible convert T d pack'.
Proof.
  intros Hperm Hone%(of_type_at_most_one Val T). rewrite !extract_of_type.
  assert (of_type T pack ≡ₚ of_type T pack') as Hof
    by (unfold of_type; by rewrite Hperm).
  destruct (of_type T pack) as [|a [|b l]]; simpl in Hone; [| |lia].
  - by apply Permutation_nil_l in Hof as <-.
  - by apply Permutation_singleton_l in Hof as <-.
Qed.

(** [check] of two packs put together is the conjunction of their checks. *)
Theorem check_app TypeFirst TypesRest p q :
  check Val convertible TypeFirst TypesRest (p ++ q)
  = bp ← check Val convertible TypeFirst TypesRest p;
    bq ← check Val convertible TypeFirst TypesRest q;
    Some (bp && bq).
Proof.
  rewrite !check_spec. simpl. f_equal. rewrite <- bool_decide_and.
  apply bool_decide_ext, Forall_app.
Qed.

(** Two packs put together have no duplicates exactly when neither has and
    no type occurs in both. *)
Theorem no_duplicates_app p q :
  no_duplicates Val convertible (p ++ q) = Some true
  ↔ no_duplicates Val convertible p = Some true
    ∧ no_duplicates Val convertible q = Some true
    ∧ ∀ a b, a ∈ p → b ∈ q → type_of a ≠ type_of b.
Proof.
  rewrite !no_duplicates_spec.
  assert (∀ P `{Decision P}, Some (bool_decide P) = Some true ↔ P) as Hdec.
  { intros P ?. split.
    - intros [= HP]. by apply bool_decide_eq_true in HP.
    - intros HP. f_equal. by apply bool_decide_eq_true. }
  rewrite !Hdec. unfold types_of. rewrite fmap_app, NoDup_app. split.
  - intros (Hp & Hdisj & Hq). split_and!; [done..|].
    intros a b Ha Hb Heq. apply (Hdisj (type_of a)).
    + by apply list_elem_of_fmap_2.
    + rewrite Heq. by apply list_elem_of_fmap_2.
  - intros (Hp & Hq & Hdisj). split_and!; [done| |done].
    intros A (a & -> & Ha)%list_elem_of_fmap (b & Heq & Hb)%list_elem_of_fmap.
    by apply (Hdisj a b).
Qed.

(** [check] sees the list of types as a set: a larger list accepts what a
    smaller one accepts, and two lists with the same types, in any order and
    with any repetition, give the same answer. *)
Theorem check_type_list TypeFirst TypesRest TypeFirst' TypesRest' pack :
  (∀ A, A ∈ TypeFirst :: TypesRest → A ∈ TypeFirst' :: TypesRest') →
  (check Val convertible TypeFirst TypesRest pack = Some true →
   check Val convertible TypeFirst' TypesRest' pack = Some true)
  ∧ ((∀ A, A ∈ TypeFirst' :: TypesRest' → A ∈ TypeFirst :: TypesRest) →
     check Val convertible TypeFirst TypesRest pack
     = check Val convertible TypeFirst' TypesRest' pack).
Proof.
  intros Hincl. rewrite !check_spec. split.
  - intros [= Hin%bool_decide_eq_true]. f_equal. apply bool_decide_eq_true.
    eapply Forall_impl; [done|]. intros a. apply Hincl.
  - intros Hincl'. f_equal. apply bool_decide_ext.
    split; intros H; (eapply Forall_impl; [done|]); intros a; auto.
Qed.

(** The public functions and the private ones they call agree on every
    pack, the packs the public overloads answer by themselves included. *)
Theorem public_functions_delegate TypeFirst TypesRest pack :
  check Val convertible TypeFirst TypesRest pack
  = params_types_v Val convertible TypeFirst TypesRest pack
  ∧ no_duplicates Val convertible pack = is_duplicates_v Val convertible pack.
Proof. split; [apply check_run|apply no_duplicates_run]. Qed.

(** [extract] stops at the first element of type [Type]: it enters its
    recursive overload once for each element before it, then the overload
    that returns [first]. *)
Theorem extract_run_stops_at_first_match T (d x : Val T) before after :
  (∀ a, a ∈ before → type_of a ≠ T) →
  extract_run Val convertible convert T d (before ++ existT T x :: after)
  = Some (replicate (length before) ext_First_Rest
          ++ [match after with [] => ext_Type | _ => ext_Type_Rest end], x).
Proof.
  induction before as [|a before IH]; intros Hbefore.
  - apply extract_run_hit.
  - assert (type_of a ≠ T) as Hne by apply Hbefore, list_elem_of_here.
    assert (∀ b, b ∈ before → type_of b ≠ T) as Hrest
      by (intros b Hb; by apply Hbefore, list_elem_of_further).
    rewrite <- app_comm_cons, extract_run_miss by done.
    specialize (IH Hrest). destruct before as [|b before]; [by rewrite IH|].
    rewrite <- app_comm_cons in *. by rewrite IH.
Qed.

(** Without an element of type [Type] in a pack that is not empty, [extract]
    recurses down to the last element and ends in [extract(const First)]. *)
Theorem extract_run_without_match T (d : Val T) a pack :
  (∀ b, b ∈ a :: pack → type_of b ≠ T) →
  extract_run Val convertible convert T d (a :: pack)
  = Some (replicate (length pack) ext_First_Rest ++ [ext_First], d).
Proof.
  revert a. induction pack as [|b pack IH]; intros a Hall.
  - rewrite extract_run_miss; [done|]. apply Hall, list_elem_of_here.
  - rewrite extract_run_miss by apply Hall, list_elem_of_here.
    rewrite IH; [done|]. intros c Hc. by apply Hall, list_elem_of_further.
Qed.

End Composition.

Section Conversions.
Context {Ty : Type} `{!EqDecision Ty}.
Variable Val : Ty → Type.
Variables convertible convertible' : Ty → Ty → bool.
Variables convert convert' : ∀ A B : Ty, Val A → Val B.

(** No call ever applies an implicit conversion: which types convert to
    which, and what a conversion yields, changes no result of the three
    operations. *)
Theorem conversions_never_apply TypeFirst TypesRest T (d : Val T)
    (pack : list (param Val)) :
  check Val convertible TypeFirst TypesRest pack
  = check Val convertible' TypeFirst TypesRest pack
  ∧ no_duplicates Val convertible pack = no_duplicates Val convertible' pack
  ∧ extract_run Val convertible convert T d pack
    = extract_run Val convertible' convert' T d pack.
Proof.
  split_and!.
  - by rewrite !check_spec.
  - by rewrite !no_duplicates_spec.
  - induction pack as [|[A x] rest IH]; [done|].
    destruct (decide (A = T)) as [->|Hne].
    + by rewrite !extract_run_hit.
    + rewrite !extract_run_miss by done. destruct rest; [done|]. by rewrite IH.
Qed.
End Conversions.

(** ** The class [Gpio] *)

Section GpioClass.
Import Gpio.

Lemma Gpio_requires_spec (params : list param) :
  Gpio_requires params
  = Some (bool_decide (Forall (λ v, type_of v ∈ allowed_first :: allowed_rest) params)
          && bool_decide (NoDup (types_of params))).
Proof.
  unfold Gpio_requires, check, no_duplicates.
  by rewrite check_spec, no_duplicates_spec.
Qed.

Lemma Gpio_constants_total (params : list param) :
  ∃ c, Gpio_constants params = Some c
       ∧ extract T_Input Disconnect params = Some (INPUT c)
       ∧ extract T_Pull No params = Some (PULL c)
       ∧ extract T_Drive SOS1 params = Some (DRIVE c)
       ∧ extract T_Sense Disabled params = Some (SENSE c)
       ∧ extract T_McuSel AppMCU params = Some (MCUSEL c).
Proof.
  unfold Gpio_constants, extract. rewrite !extract_of_type. simpl. by eexists.
Qed.

Lemma Gpio_accepted (params : list param) (c : constants) :
  Gpio params = Some c →
  Forall (λ v, type_of v ∈ allowed_first :: allowed_rest) params
  ∧ NoDup (types_of params)
  ∧ Gpio_constants params = Some c.
Proof.
  unfold Gpio. rewrite Gpio_requires_spec. simpl.
  destruct (bool_decide (Forall _ _)) eqn:Hall; [|done].
  destruct (bool_decide (NoDup _)) eqn:Hnd; [|done]. simpl.
  apply bool_decide_eq_true in Hall, Hnd. done.
Qed.

(** The class can be instantiated exactly with the packs whose constants
    have types among [Input], [Pull], [Drive], [Sense], [McuSel], each type
    at most once. *)
Theorem Gpio_instantiable (params : list param) :
  is_Some (Gpio params)
  ↔ (∀ v, v ∈ params → type_of v ∈ [T_Input; T_Pull; T_Drive; T_Sense; T_McuSel])
    ∧ NoDup (types_of params).
Proof.
  split.
  - intros [c (Hall & Hnd & _)%Gpio_accepted]. split; [|done].
    by apply Forall_forall.
  - intros [Hall%Forall_forall Hnd]. unfold Gpio. rewrite Gpio_requires_spec.
    rewrite !bool_decide_eq_true_2 by done. simpl.
    destruct (Gpio_constants_total params) as (c & -> & _). by eexists.
Qed.

(** The extra parameters can be given in any order: a permuted pack is
    accepted or rejected alike and gives the same constants. *)
Theorem Gpio_any_order (params params' : list param) :
  params ≡ₚ params' → Gpio params = Gpio params'.
Proof.
  intros Hperm. unfold Gpio. rewrite !Gpio_requires_spec.
  assert (types_of params ≡ₚ types_of params') as Htypes
    by (unfold types_of; by rewrite Hperm).
  assert (Forall (λ v, type_of v ∈ allowed_first :: allowed_rest) params
          ↔ Forall (λ v, type_of v ∈ allowed_first :: allowed_rest) params')
    as Hall by (by rewrite Hperm).
  assert (NoDup (types_of params) ↔ NoDup (types_of params')) as Hnd
    by (by rewrite Htypes).
  rewrite <- (bool_decide_ext _ _ Hall), <- (bool_decide_ext _ _ Hnd).
  case_bool_decide as Hin; simpl; [|done].
  case_bool_decide as Hok; simpl; [|done].
  unfold Gpio_constants, extract.
  by rewrite !(λ T d, extract_Permutation Val convertible convert T d _ _ Hperm Hok).
Qed.

(** Every constant of an accepted pack is the constant of the class for its
    type, and a type the pack does not mention gets its default:
    [Input::Disconnect] for [INPUT], the value-initialized enumerator for the
    other four. *)
Theorem Gpio_settings (params : list param) (c : constants) :
  Gpio params = Some c →
  ∀ t : ty,
    (∀ x : Val t, val t x ∈ params → setting c t = Some x)
    ∧ (t ∈ allowed_first :: allowed_rest →
       (∀ a, a ∈ params → type_of a ≠ t) →
       setting c t = Some (default_of t)).
Proof.
  intros (Hall & Hnd & Hc)%Gpio_accepted t.
  destruct (Gpio_constants_total params) as (c' & Hc' & Hi & Hp & Hd & Hs & Hm).
  rewrite Hc in Hc'. injection Hc' as <-.
  assert (∀ x : Val t, val t x ∈ params → ∀ d, extract t d params = Some x)
    as Hfound.
  { intros x Hx d. by apply extract_unique_element. }
  assert (∀ x : Val t, val t x ∈ params → t ∈ allowed_first :: allowed_rest)
    as Hallowed.
  { intros x Hx. by apply (proj1 (Forall_forall _ _) Hall (val t x)). }
  split.
  - intros x Hx. specialize (Hfound x Hx). specialize (Hallowed x Hx).
    destruct t; simpl;
      first [ by apply (bool_decide_pack _) in Hallowed
            | rewrite Hfound in *; congruence ].
  - intros Hin Hnone.
    assert (∀ d, extract t d params = Some d) as Habsent
      by (intros d; by apply extract_absent, Forall_forall).
    destruct t; simpl;
      first [ by apply (bool_decide_pack _) in Hin
            | rewrite Habsent in *; congruence ].
Qed.

(** *** Instances *)

Lemma accepted_pack_length_witness :
  check T_Input [T_Pull] [val T_Input Connect; val T_Pull Up] = Some true
  ∧ no_duplicates [val T_Input Connect; val T_Pull Up] = Some true
  ∧ length [val T_Input Connect; val T_Pull Up] ≤ 2.
Proof.
  split_and!; [reflexivity..|].
  exact (accepted_pack_length Val convertible T_Input [T_Pull]
           [val T_Input Connect; val T_Pull Up] eq_refl eq_refl).
Defined.

Lemma extract_recovers_element_witness :
  no_duplicates [val T_Input Connect; val T_Pull Up] = Some true
  ∧ val T_Pull Up ∈ [val T_Input Connect; val T_Pull Up]
  ∧ extract T_Pull No [val T_Input Connect; val T_Pull Up] = Some Up.
Proof.
  assert (val T_Pull Up ∈ [val T_Input Connect; val T_Pull Up]) as H
    by apply list_elem_of_further, list_elem_of_here.
  split_and!; [reflexivity|exact H|].
  exact (extract_recovers_element Val convertible convert T_Pull No Up
           [val T_Input Connect; val T_Pull Up] eq_refl H).
Defined.

Lemma extract_result_origin_witness :
  extract T_Pull No [val T_Input Connect; val T_Pull Up; val T_Pull Down] = Some Up
  ∧ ((Up = No ∧ ∀ a, a ∈ [val T_Input Connect; val T_Pull Up; val T_Pull Down] →
                     type_of a ≠ T_Pull)
     ∨ val T_Pull Up ∈ [val T_Input Connect; val T_Pull Up; val T_Pull Down]).
Proof.
  split; [reflexivity|].
  exact (extract_result_origin Val convertible convert T_Pull No Up
           [val T_Input Connect; val T_Pull Up; val T_Pull Down] eq_refl).
Defined.

Lemma check_type_list_witness :
  (∀ A, A ∈ [T_Input; T_Pull] → A ∈ [T_Pull; T_Input; T_Pull])
  ∧ (check T_Input [T_Pull] [val T_Pull Up] = Some true →
     check T_Pull [T_Input; T_Pull] [val T_Pull Up] = Some true)
  ∧ ((∀ A, A ∈ [T_Pull; T_Input; T_Pull] → A ∈ [T_Input; T_Pull]) →
     check T_Input [T_Pull] [val T_Pull Up]
     = check T_Pull [T_Input; T_Pull] [val T_Pull Up]).
Proof.
  assert (∀ A, A ∈ [T_Input; T_Pull] → A ∈ [T_Pull; T_Input; T_Pull]) as H.
  { intros A [->|[->|[]%elem_of_nil]%elem_of_cons]%elem_of_cons;
      repeat constructor. }
  split; [exact H|].
  exact (check_type_list Val convertible T_Input [T_Pull] T_Pull [T_Input; T_Pull]
           [val T_Pull Up] H).
Defined.

Lemma extract_run_stops_at_first_match_witness :
  (∀ a, a ∈ [val T_Input Connect; val T_Drive HOS1] → type_of a ≠ T_Pull)
  ∧ extract_run Val convertible convert T_Pull No
      ([val T_Input Connect; val T_Drive HOS1] ++ val T_Pull Up :: [val T_Pull Down])
    = Some ([ext_First_Rest; ext_First_Rest; ext_Type_Rest], Up).
Proof.
  assert (∀ a, a ∈ [val T_Input Connect; val T_Drive HOS1] → type_of a ≠ T_Pull)
    as H by (apply Forall_forall; repeat constructor; discriminate).
  split; [exact H|].
  exact (extract_run_stops_at_first_match Val convertible convert T_Pull No Up
           [val T_Input Connect; val T_Drive HOS1] [val T_Pull Down] H).
Defined.

Lemma extract_run_without_match_witness :
  (∀ b, b ∈ [val T_Input Connect; val T_Drive HOS1] → type_of b ≠ T_Pull)
  ∧ extract_run Val convertible convert T_Pull Down
      [val T_Input Connect; val T_Drive HOS1]
    = Some ([ext_First_Rest; ext_First], Down).
Proof.
  assert (∀ b, b ∈ [val T_Input Connect; val T_Drive HOS1] → type_of b ≠ T_Pull)
    as H by (apply Forall_forall; repeat constructor; discriminate).
  split; [exact H|].
  exact (extract_run_without_match Val convertible convert T_Pull Down
           (val T_Input Connect) [val T_Drive HOS1] H).
Defined.

(** The two declarations of the Readme's [uartRx], extras swapped. *)
Lemma Gpio_any_order_witness :
  [val T_Pull Up; val T_McuSel Peripheral]
  ≡ₚ [val T_McuSel Peripheral; val T_Pull Up]
  ∧ Gpio [val T_Pull Up; val T_McuSel Peripheral]
    = Gpio [val T_McuSel Peripheral; val T_Pull Up].
Proof.
  assert ([val T_Pull Up; val T_McuSel Peripheral]
          ≡ₚ [val T_McuSel Peripheral; val T_Pull Up]) as H by apply perm_swap.
  split; [exact H|]. exact (Gpio_any_order _ _ H).
Defined.

Lemma Gpio_settings_witness :
  Gpio [val T_Pull Up; val T_McuSel Peripheral]
  = Some (Constants Disconnect Up SOS1 Disabled Peripheral)
  ∧ setting (Constants Disconnect Up SOS1 Disabled Peripheral) T_Pull = Some Up
  ∧ setting (Constants Disconnect Up SOS1 Disabled Peripheral) T_Input
    = Some Disconnect.
Proof.
  pose proof (Gpio_settings [val T_Pull Up; val T_McuSel Peripheral]
                (Constants Disconnect Up SOS1 Disabled Peripheral) eq_refl) as H.
  split_and!; [reflexivity| |].
  - apply (proj1 (H T_Pull) Up), list_elem_of_here.
  - apply (proj2 (H T_Input)).
    + apply list_elem_of_here.
    + apply Forall_forall. repeat constructor; discriminate.
Defined.
End GpioClass.
